(** * Aurum data discovery: the query algebra of [algebra.py]

    A shallow embedding of class [Algebra] (src/algebra.py): the input
    normalizer [_general_to_drs], the combiner API, the traversal engine
    ([neighbor_search], [paths], [traverse]) and the metadata facade
    ([annotate], [md_search]).

    Python objects that are mutated through aliases (the DRS values) live in
    an explicit store and are handled by reference.  Every call into the
    Network and Store collaborators is appended to a log, so that statements
    about which calls are made, and when, can be read off the final state.
    Exceptions are outcomes of the computation. *)

From Stdlib Require Import ZArith Ascii String.
From stdpp Require Import gmap strings list pretty.

Open Scope string_scope.
Open Scope Z_scope.
Open Scope list_scope.

(** ** Values of [api.apiutils] and [api.annotation] *)

(** A relevance score is a Python number: [Hit(..., 0)] in [_node_to_hit]
    carries the int [0], [_nid_to_hit] the float [0.0].  A float is kept as
    mantissa and binary exponent; the module never computes on scores. *)
Inductive number : Type :=
| NInt (z : Z)
| NFloat (mantissa exponent : Z).

(** The float literal [0.0]. *)
Definition float_zero : number := NFloat 0 0.

(** [Hit] is a named tuple [(nid, db_name, source_name, field_name, score)].
    [field_name] may be [None]: [_general_to_drs] tests for it. *)
Record Hit : Type := mkHit {
  nid : Z;
  db_name : string;
  source_name : string;
  field_name : option string;
  score : number
}.

Inductive DRSMode : Type := FIELDS | TABLE.

Definition DRSMode_eqb (a b : DRSMode) : bool :=
  match a, b with
  | FIELDS, FIELDS | TABLE, TABLE => true
  | _, _ => false
  end.

(** Modelled from the spec: the members of [Relation] are declared in
    [api.apiutils], which is not part of the sources; the algebra names only
    [Relation.PKFK] and passes every relation through to the Network. *)
Inductive Relation : Type :=
| PKFK
| OtherRelation (name : string).

(** Modelled from the spec: [OP] is declared in [api.apiutils]; the algebra
    names [NONE], [KW_LOOKUP], [ORIGIN] and [TABLE], and the Network tags its
    answers with kinds of its own. *)
Inductive OP : Type :=
| NONE
| KW_LOOKUP
| ORIGIN
| OP_TABLE
| OP_other (name : string).

Inductive Param : Type :=
| ParamStr (s : string)
| ParamHit (h : Hit).

(** [Operation(op, params=[...])]. *)
Record Operation : Type := mkOperation {
  op : OP;
  params : list Param
}.

Inductive MDClass : Type := WARNING | INSIGHT | QUESTION.

Inductive MDRelation : Type :=
| MEANS_SAME_AS
| MEANS_DIFF_FROM
| IS_SUBCLASS_OF
| IS_SUPERCLASS_OF
| IS_MEMBER_OF
| IS_CONTAINER_OF.

(** Modelled from the spec: [MDHit] is declared in [api.annotation]; section 3
    lists its content as annotation id, author, text, class and the
    source/target links. *)
Record MDHit : Type := mkMDHit {
  md_id : string;
  md_author : string;
  md_text : string;
  md_class_of : string;
  md_source : Z;
  md_target : option (Z * string)
}.

(** Modelled from the spec: [MRS] is declared in [api.annotation]; the algebra
    only ever builds one from a list of metadata hits. *)
Record MRS : Type := mkMRS { mrs_data : list MDHit }.

(** Modelled from the spec: the state of a [DRS] object (class [DRS] of
    [api.apiutils] is not part of the sources).  Section 3: an ordered
    sequence of Hits, a mode, and the provenance trail, the ordered list of
    Operations, own and absorbed. *)
Record DRS : Type := mkDRS {
  data : list Hit;
  mode : DRSMode;
  provenance : list Operation
}.

(** ** The collaborators *)

(** One entry of the call log per call into a collaborator, with the
    arguments of the call. *)
Inductive Event : Type :=
| Call_get_info_for (nids : list string)
| Call_get_hits_from_table (table : string)
| Call_neighbors_id (h : Hit) (relation : Relation)
| Call_find_path_hit (h1 h2 : Hit) (relation : Relation) (max_hops : Z)
| Call_find_path_table (h1 h2 : Hit) (relation : Relation) (max_hops : Z)
| Call_add_annotation (author text md_class : string) (source : Z)
    (target : option (Z * string))
| Call_get_metadata (nid : option Z) (relation : option string)
    (nid_is_source : option bool).

(** The collaborators are external and may keep state of their own: what a
    call answers is a function of the calls made so far and of its arguments.
    A DRS answered by the Network is a new object. *)
Record Network : Type := mkNetwork {
  get_info_for : list Event -> list string ->
                 list (Z * string * string * option string);
  get_hits_from_table : list Event -> string -> list Hit;
  neighbors_id : list Event -> Hit -> Relation -> DRS;
  find_path_hit : list Event -> Hit -> Hit -> Relation -> Z -> DRS;
  find_path_table : list Event -> Hit -> Hit -> Relation -> Z -> DRS
}.

Record Store : Type := mkStore {
  add_annotation : list Event -> string -> string -> string -> Z ->
                   option (Z * string) -> MDHit;
  get_metadata : list Event -> option Z -> option string -> option bool ->
                 list MDHit
}.

(** [compute_field_id], imported from [api.apiutils] as [id_from]: the node
    identifier as a function of the database, source and field names. *)
Class ApiUtils : Type := { id_from : string -> string -> string -> Z }.

(** ** Outcomes, the object store and the monad *)

Inductive exn : Type :=
| ValueError (msg : string)
| AssertionError (args : list string)
| AttributeError (name : string)
| IndexError (msg : string)
| InvalidReference.

Inductive outcome (A : Type) : Type :=
| Return (a : A)
| Raise (e : exn).
Arguments Return {A} a.
Arguments Raise {A} e.

(** A reference to a DRS object: its index in the store. *)
Definition ref : Type := nat.

Record state : Type := mkState {
  heap : list DRS;
  calls : list Event
}.

Definition M (A : Type) : Type := state -> outcome A * state.

Definition ret {A} (a : A) : M A := fun s => (Return a, s).

Definition raise {A} (e : exn) : M A := fun s => (Raise e, s).

Definition bind {A B} (m : M A) (k : A -> M B) : M B :=
  fun s =>
    match m s with
    | (Return a, s') => k a s'
    | (Raise e, s') => (Raise e, s')
    end.

Notation "x <- m ;; k" := (bind m (fun x => k))
  (at level 100, m at next level, right associativity).
Notation "m ;;; k" := (bind m (fun _ => k))
  (at level 100, right associativity).

(** A new object, at the next free index. *)
Definition alloc (d : DRS) : M ref :=
  fun s => (Return (length (heap s)),
            {| heap := heap s ++ [d]; calls := calls s |}).

(** [InvalidReference] is no Python exception: it is the answer of the model
    to a reference outside the store, which no run starting from references
    into the store produces. *)
Definition load (r : ref) : M DRS :=
  fun s =>
    match heap s !! r with
    | Some d => (Return d, s)
    | None => (Raise InvalidReference, s)
    end.

Definition update (r : ref) (f : DRS -> DRS) : M unit :=
  d <- load r ;;
  fun s => (Return tt, {| heap := <[r := f d]> (heap s); calls := calls s |}).

(** A call into a collaborator: logged, then answered from the log so far. *)
Definition call {A} (ev : Event) (answer : list Event -> A) : M A :=
  fun s => (Return (answer (calls s)),
            {| heap := heap s; calls := calls s ++ [ev] |}).

(** [for x in xs: acc = body(x, acc)]. *)
Fixpoint for_each {A S} (xs : list A) (acc : S) (body : A -> S -> M S) : M S :=
  match xs with
  | [] => ret acc
  | x :: xs' => acc' <- body x acc ;; for_each xs' acc' body
  end.

(** A loop whose body may execute [return]. *)
Inductive flow (S R : Type) : Type :=
| Next (acc : S)
| Returned (r : R).
Arguments Next {S R} acc.
Arguments Returned {S R} r.

Fixpoint for_each_return {A S R} (xs : list A) (acc : S)
    (body : A -> S -> M (flow S R)) : M (flow S R) :=
  match xs with
  | [] => ret (Next acc)
  | x :: xs' =>
      f <- body x acc ;;
      match f with
      | Next acc' => for_each_return xs' acc' body
      | Returned r => ret (Returned r)
      end
  end.

(** ** Class [DRS] *)

(** Modelled from the spec: the methods of class [DRS], which is declared in
    [api.apiutils] and not part of the sources.  Section 3: equality of Hits
    in all set operations is by [nid] alone; a DRS is mutated by the
    append-style combinators ([absorb], [absorb_provenance], union,
    intersection, difference); absorbing B into A appends B's trail to A's
    trail.  [algebra.py] itself relies on the mutation: [paths] and
    [traverse] call [o_drs.absorb_provenance(a)] as a statement and go on
    with [o_drs].  Each combinator therefore updates its receiver in place
    and returns it. *)
Definition has_nid (n : Z) (hs : list Hit) : bool :=
  existsb (fun h => nid h =? n) hs.

(** The Hits of [xs], then those of [ys] whose [nid] is not there yet. *)
Definition union_hits (xs ys : list Hit) : list Hit :=
  fold_left (fun acc h => if has_nid (nid h) acc then acc else acc ++ [h])
            ys xs.

(** Modelled from the spec: [DRS(data, operation)], section 4.1: a new DRS
    without duplicate [nid]s, the first of each kept; the mode of a new DRS is
    FIELDS (the normalizer builds its FIELDS-mode results without setting a
    mode) and its trail holds its own operation. *)
Definition DRS_init (hits : list Hit) (operation : Operation) : M ref :=
  alloc {| data := union_hits [] hits; mode := FIELDS;
           provenance := [operation] |}.

Definition get_mode (self : ref) : M DRSMode :=
  d <- load self ;; ret (mode d).

(** Modelled from the spec: [for h in drs] visits the Hits the DRS holds when
    the loop starts (section 4.4: one round of [traverse] is
    accumulator <- accumulator + neighbors(accumulator)). *)
Definition iter (self : ref) : M (list Hit) :=
  d <- load self ;; ret (data d).

Definition set_table_mode (self : ref) : M unit :=
  update self (fun d => {| data := data d; mode := TABLE;
                           provenance := provenance d |}).

Definition set_fields_mode (self : ref) : M unit :=
  update self (fun d => {| data := data d; mode := FIELDS;
                           provenance := provenance d |}).

Definition absorb_provenance (self other : ref) : M ref :=
  o <- load other ;;
  update self (fun d => {| data := data d; mode := mode d;
                           provenance := provenance d ++ provenance o |}) ;;;
  ret self.

Definition absorb (self other : ref) : M ref :=
  o <- load other ;;
  update self (fun d => {| data := union_hits (data d) (data o);
                           mode := mode d;
                           provenance := provenance d ++ provenance o |}) ;;;
  ret self.

Definition DRS_union (self other : ref) : M ref :=
  o <- load other ;;
  update self (fun d => {| data := union_hits (data d) (data o);
                           mode := mode d;
                           provenance := provenance d ++ provenance o |}) ;;;
  ret self.

Definition DRS_intersection (self other : ref) : M ref :=
  o <- load other ;;
  update self (fun d =>
    {| data := List.filter (fun h => has_nid (nid h) (data o)) (data d);
       mode := mode d;
       provenance := provenance d ++ provenance o |}) ;;;
  ret self.

Definition DRS_set_difference (self other : ref) : M ref :=
  o <- load other ;;
  update self (fun d =>
    {| data := List.filter (fun h => negb (has_nid (nid h) (data o))) (data d);
       mode := mode d;
       provenance := provenance d ++ provenance o |}) ;;;
  ret self.

(** ** Python's [int] and [str] on the inputs of the normalizer *)

(** What a caller may pass as [general_input].  [GTuple] is a tuple of
    strings that is not a Hit; [GOther] is any other object (a list, a
    dict, ...): [int] rejects it and it is no [str], tuple, Hit or DRS. *)
Inductive general : Type :=
| GNone
| GDRS (r : ref)
| GInt (n : Z)
| GStr (s : string)
| GTuple (node : list string)
| GHit (h : Hit)
| GOther.

(** [int(s)] on a string of ASCII characters: surrounding white space is
    dropped, then an optional sign and decimal digits, where single
    underscores may separate digits. *)
Definition is_space (c : ascii) : bool :=
  let n := Z.of_nat (nat_of_ascii c) in
  ((9 <=? n) && (n <=? 13)) || ((28 <=? n) && (n <=? 32)).

Fixpoint lstrip (cs : list ascii) : list ascii :=
  match cs with
  | c :: cs' => if is_space c then lstrip cs' else cs
  | [] => []
  end.

Definition strip (cs : list ascii) : list ascii :=
  rev (lstrip (rev (lstrip cs))).

Definition digit_of (c : ascii) : option Z :=
  let n := Z.of_nat (nat_of_ascii c) in
  if (48 <=? n) && (n <=? 57) then Some (n - 48) else None.

Fixpoint digits (acc : Z) (after_digit : bool) (cs : list ascii) : option Z :=
  match cs with
  | [] => if after_digit then Some acc else None
  | c :: cs' =>
      match digit_of c with
      | Some d => digits (10 * acc + d) true cs'
      | None =>
          if Ascii.eqb c "_" && after_digit then digits acc false cs'
          else None
      end
  end.

Definition int_of_str (s : string) : option Z :=
  match strip (list_ascii_of_string s) with
  | "-"%char :: cs => option_map Z.opp (digits 0 false cs)
  | "+"%char :: cs => digits 0 false cs
  | cs => digits 0 false cs
  end.

(** [str(x)]: the decimal numeral of an int, a string itself.  On the other
    shapes [str] gives an object description that no call site of this module
    reaches ([_nid_to_hit] is applied only where [_represents_int] holds). *)
Definition str (x : general) : string :=
  match x with
  | GInt n => pretty n
  | GStr s => s
  | GNone => "None"
  | _ => ""
  end.

(** ** Class [Algebra] *)

(** What an attribute of an [Algebra] instance is bound to. *)
Inductive Attr : Type :=
| AttrNetwork (n : Network)
| AttrStore (s : Store).

(** An instance is its attribute dictionary. *)
Abbreviation Algebra := (gmap string Attr).

Definition __init__ (network : Network) (store_client : Store) : Algebra :=
  <["_network" := AttrNetwork network]>
    (<["_store_client" := AttrStore store_client]> ∅).

(** [self.<name>] where a Network is used; an unbound name, or one bound to
    an object without the methods of a Network, raises [AttributeError]. *)
Definition attr_network (self : Algebra) (name : string) : M Network :=
  match self !! name with
  | Some (AttrNetwork n) => ret n
  | _ => raise (AttributeError name)
  end.

Definition attr_store (self : Algebra) (name : string) : M Store :=
  match self !! name with
  | Some (AttrStore s) => ret s
  | _ => raise (AttributeError name)
  end.

(** A call into the Network that answers a DRS: the answer is a new object. *)
Definition call_drs (ev : Event) (answer : list Event -> DRS) : M ref :=
  d <- call ev answer ;; alloc d.

Definition _represents_int (x : general) : bool :=
  match x with
  | GInt _ => true
  | GStr s => match int_of_str s with Some _ => true | None => false end
  | _ => false
  end.

Definition _mdclass_to_str (md_class : MDClass) : string :=
  match md_class with
  | WARNING => "warning"
  | INSIGHT => "insight"
  | QUESTION => "question"
  end.

Definition _mdrelation_to_str (md_relation : MDRelation) : string * bool :=
  match md_relation with
  | MEANS_SAME_AS => ("same", true)
  | MEANS_DIFF_FROM => ("different", true)
  | IS_SUBCLASS_OF => ("subclass", true)
  | IS_SUPERCLASS_OF => ("subclass", false)
  | IS_MEMBER_OF => ("member", true)
  | IS_CONTAINER_OF => ("member", false)
  end.

Definition error_text : list string :=
  ["Input parameters are not in the same mode "; "(fields, table)"].

Definition _assert_same_mode (a b : ref) : M unit :=
  ma <- get_mode a ;;
  mb <- get_mode b ;;
  if DRSMode_eqb ma mb then ret tt else raise (AssertionError error_text).

Definition _nid_to_hit (self : Algebra) (nid : general) : M Hit :=
  let nid := str nid in
  let score := float_zero in
  net <- attr_network self "_network" ;;
  info <- call (Call_get_info_for [nid])
               (fun log => get_info_for net log [nid]) ;;
  match info with
  | (nid, db, source, field) :: _ => ret (mkHit nid db source field score)
  | [] => raise (IndexError "list index out of range")
  end.

Definition _hit_to_drs (self : Algebra) (hit : Hit) (table_mode : bool)
  : M ref :=
  if table_mode then
    let table := source_name hit in
    net <- attr_network self "_network" ;;
    hits <- call (Call_get_hits_from_table table)
                 (fun log => get_hits_from_table net log table) ;;
    drs <- DRS_init hits (mkOperation OP_TABLE [ParamHit hit]) ;;
    set_table_mode drs ;;;
    ret drs
  else
    DRS_init [hit] (mkOperation ORIGIN []).

Section Engine.

Context {api : ApiUtils}.

Definition _node_to_hit (node : list string) : M Hit :=
  match node with
  | [db; source; field] =>
      let nid := id_from db source field in
      ret (mkHit nid db source (Some field) (NInt 0))
  | _ => raise (ValueError "wrong number of values to unpack")
  end.

(** [field is '' or field is None]. *)
Definition field_undefined (field : option string) : bool :=
  match field with
  | Some "" | None => true
  | Some _ => false
  end.

(** The local [general_input] is rebound from one test to the next; each
    [general_input <- ...] below is one of the [if] statements of the
    source, in its order. *)
Definition _general_to_drs (self : Algebra) (general_input : general)
  : M ref :=
  match general_input with
  | GDRS r => ret r
  | _ =>
    general_input <-
      match general_input with
      | GNone => r <- DRS_init [] (mkOperation NONE []) ;; ret (GDRS r)
      | _ => ret general_input
      end ;;
    general_input <-
      (if _represents_int general_input
       then h <- _nid_to_hit self general_input ;; ret (GHit h)
       else ret general_input) ;;
    general_input <-
      match general_input with
      | GStr table =>
          net <- attr_network self "_network" ;;
          hits <- call (Call_get_hits_from_table table)
                       (fun log => get_hits_from_table net log table) ;;
          r <- DRS_init hits (mkOperation ORIGIN []) ;;
          ret (GDRS r)
      | _ => ret general_input
      end ;;
    general_input <-
      match general_input with
      | GTuple node => h <- _node_to_hit node ;; ret (GHit h)
      | _ => ret general_input
      end ;;
    general_input <-
      match general_input with
      | GHit hit =>
          let field := field_name hit in
          if field_undefined field
          then r <- _hit_to_drs self hit true ;; ret (GDRS r)
          else r <- _hit_to_drs self hit false ;; ret (GDRS r)
      | _ => ret general_input
      end ;;
    match general_input with
    | GDRS r => ret r
    | _ => raise (ValueError
             "Input is not None, an integer, field tuple, Hit, or DRS")
    end
  end.

Definition _general_to_field_drs (self : Algebra) (general_input : general)
  : M ref :=
  drs <- _general_to_drs self general_input ;;
  set_fields_mode drs ;;;
  hits <- iter drs ;;
  for_each hits drs (fun h drs =>
    fields_table <- _hit_to_drs self h true ;;
    absorb drs fields_table).

(** *** Combiner API *)

Definition intersection (self : Algebra) (a b : general) : M ref :=
  a <- _general_to_drs self a ;;
  b <- _general_to_drs self b ;;
  _assert_same_mode a b ;;;
  DRS_intersection a b.

Definition union (self : Algebra) (a b : general) : M ref :=
  a <- _general_to_drs self a ;;
  b <- _general_to_drs self b ;;
  _assert_same_mode a b ;;;
  DRS_union a b.

(** [difference] normalizes its operands twice, before and after its
    docstring. *)
Definition difference (self : Algebra) (a b : general) : M ref :=
  a <- _general_to_drs self a ;;
  b <- _general_to_drs self b ;;
  a <- _general_to_drs self (GDRS a) ;;
  b <- _general_to_drs self (GDRS b) ;;
  _assert_same_mode a b ;;;
  DRS_set_difference a b.

(** *** Basic API and TC API *)

(** [max_hops] is accepted and not used. *)
Definition neighbor_search (self : Algebra) (general_input : general)
    (relation : Relation) (max_hops : option Z) : M ref :=
  i_drs <- _general_to_drs self general_input ;;
  o_drs <- DRS_init [] (mkOperation NONE []) ;;
  o_drs <- absorb_provenance o_drs i_drs ;;
  m <- get_mode i_drs ;;
  (if DRSMode_eqb m TABLE
   then _general_to_field_drs self (GDRS i_drs) ;;; ret tt
   else ret tt) ;;;
  hits <- iter i_drs ;;
  for_each hits o_drs (fun h o_drs =>
    net <- attr_network self "_network" ;;
    hits_drs <- call_drs (Call_neighbors_id h relation)
                         (fun log => neighbors_id net log h relation) ;;
    absorb o_drs hits_drs).

(** [drs_b != drs_a]: class [DRS] is compared by identity (section 3 names
    no equality between DRSs other than that of their Hits).
    [itertools.product] reads both operands before the first pair. *)
Definition paths (self : Algebra) (drs_a drs_b : general)
    (relation : Relation) (max_hops : Z) : M ref :=
  drs_a <- _general_to_drs self drs_a ;;
  drs_b <- _general_to_drs self drs_b ;;
  _assert_same_mode drs_a drs_b ;;;
  o_drs <- DRS_init [] (mkOperation NONE []) ;;
  absorb_provenance o_drs drs_a ;;;
  (if negb (Nat.eqb drs_b drs_a)
   then absorb_provenance o_drs drs_b ;;; ret tt
   else ret tt) ;;;
  hits_a <- iter drs_a ;;
  hits_b <- iter drs_b ;;
  for_each (list_prod hits_a hits_b) o_drs (fun '(h1, h2) o_drs =>
    m <- get_mode drs_a ;;
    res_drs <-
      (if DRSMode_eqb m FIELDS
       then net <- attr_network self "_network" ;;
            call_drs (Call_find_path_hit h1 h2 relation max_hops)
              (fun log => find_path_hit net log h1 h2 relation max_hops)
       else net <- attr_network self "_network" ;;
            call_drs (Call_find_path_table h1 h2 relation max_hops)
              (fun log => find_path_table net log h1 h2 relation max_hops)) ;;
    absorb o_drs res_drs).

(** The body of [while max_hops > 0: max_hops = max_hops - 1; ...] runs
    [Z.to_nat max_hops] times.  Inside class [Algebra] the name
    [self.__network] is the attribute [_Algebra__network] (private names are
    prefixed with the class name); [__init__] binds [_network]. *)
Fixpoint traverse_rounds (self : Algebra) (primitive : Relation)
    (rounds : nat) (fringe o_drs : ref) : M ref :=
  match rounds with
  | O => ret o_drs
  | S rounds' =>
      hits <- iter fringe ;;
      o_drs <- for_each hits o_drs (fun h o_drs =>
        net <- attr_network self "_Algebra__network" ;;
        hits_drs <- call_drs (Call_neighbors_id h primitive)
                             (fun log => neighbors_id net log h primitive) ;;
        union self (GDRS o_drs) (GDRS hits_drs)) ;;
      let fringe := o_drs in
      traverse_rounds self primitive rounds' fringe o_drs
  end.

Definition traverse (self : Algebra) (a : general) (primitive : Relation)
    (max_hops : Z) : M ref :=
  a <- _general_to_drs self a ;;
  o_drs <- DRS_init [] (mkOperation NONE []) ;;
  m <- get_mode a ;;
  if DRSMode_eqb m TABLE
  then raise (ValueError "input mode DRSMode.TABLE not supported")
  else
    let fringe := a in
    absorb_provenance o_drs a ;;;
    traverse_rounds self primitive (Z.to_nat max_hops) fringe o_drs.

(** *** Metadata API *)

(** The dictionary [ref] of [annotate], with its two keys. *)
Record Ref : Type := mkRef {
  general_target : general;
  type : option MDRelation
}.

(** [annotate] answers [Some mrs] where it executes [return MRS(md_hits)]
    and [None] where it runs off its end. *)
Definition annotate (self : Algebra) (author text : string)
    (md_class : MDClass) (general_source : general) (ref : Ref)
  : M (option MRS) :=
  source <- _general_to_drs self general_source ;;
  target <- _general_to_drs self (general_target ref) ;;
  ms <- get_mode source ;;
  mt <- get_mode target ;;
  if negb (DRSMode_eqb ms FIELDS) || negb (DRSMode_eqb mt FIELDS)
  then raise (ValueError "source and targets must be columns")
  else
    let md_class := _mdclass_to_str md_class in
    let md_hits := [] in
    match type ref with
    | None =>
        hits <- iter source ;;
        md_hits <- for_each hits md_hits (fun hit_source md_hits =>
          store <- attr_store self "_store_client" ;;
          res <- call (Call_add_annotation author text md_class
                         (nid hit_source) None)
                      (fun log => add_annotation store log author text
                                    md_class (nid hit_source) None) ;;
          ret (md_hits ++ [res])) ;;
        ret (Some (mkMRS md_hits))
    | Some ref_type =>
        let '(md_relation, nid_is_source) := _mdrelation_to_str ref_type in
        let '(source, target) :=
          if negb nid_is_source then (target, source) else (source, target) in
        hits <- iter source ;;
        out <- for_each_return hits md_hits (fun hit_source md_hits =>
          targets <- iter target ;;
          md_hits <- for_each targets md_hits (fun hit_target md_hits =>
            store <- attr_store self "_store_client" ;;
            res <- call (Call_add_annotation author text md_class
                           (nid hit_source)
                           (Some (nid hit_target, md_relation)))
                        (fun log => add_annotation store log author text
                                      md_class (nid hit_source)
                                      (Some (nid hit_target, md_relation))) ;;
            ret (md_hits ++ [res])) ;;
          ret (Returned (mkMRS md_hits))) ;;
        match out with
        | Returned mrs => ret (Some mrs)
        | Next _ => ret None
        end
    end.

Definition md_search (self : Algebra) (general_input : general)
    (relation : option MDRelation) : M MRS :=
  match general_input with
  | GNone =>
      store <- attr_store self "_store_client" ;;
      hits <- call (Call_get_metadata None None None)
                   (fun log => get_metadata store log None None None) ;;
      ret (mkMRS hits)
  | _ =>
      drs_nodes <- _general_to_drs self general_input ;;
      m <- get_mode drs_nodes ;;
      if negb (DRSMode_eqb m FIELDS)
      then raise (ValueError "general_input must be columns")
      else
        match relation with
        | None =>
            nodes <- iter drs_nodes ;;
            md_hits <- for_each nodes [] (fun node md_hits =>
              store <- attr_store self "_store_client" ;;
              found <- call (Call_get_metadata (Some (nid node)) None None)
                         (fun log => get_metadata store log
                                       (Some (nid node)) None None) ;;
              ret (md_hits ++ found)) ;;
            ret (mkMRS md_hits)
        | Some relation =>
            let '(store_relation, nid_is_source) :=
              _mdrelation_to_str relation in
            nodes <- iter drs_nodes ;;
            md_hits <- for_each nodes [] (fun node md_hits =>
              store <- attr_store self "_store_client" ;;
              found <- call (Call_get_metadata (Some (nid node))
                               (Some store_relation) (Some nid_is_source))
                         (fun log => get_metadata store log
                                       (Some (nid node))
                                       (Some store_relation)
                                       (Some nid_is_source)) ;;
              ret (md_hits ++ found)) ;;
            ret (mkMRS md_hits)
        end
  end.

(** *** Helper functions *)

(** What [make_drs] is given: one input of the normalizer, or a Python list
    of them. *)
Inductive make_input : Type :=
| One (general_input : general)
| Many (general_inputs : list general).

(** [[f(x) for x in xs]]. *)
Fixpoint comprehension {A B} (f : A -> M B) (xs : list A) : M (list B) :=
  match xs with
  | [] => ret []
  | x :: xs' => y <- f x ;; ys <- comprehension f xs' ;; ret (y :: ys)
  end.

Definition newline : string := String (ascii_of_nat 10) EmptyString.
Definition tab : string := String (ascii_of_nat 9) EmptyString.

Definition make_drs_msg : string :=
  ("--- Error ---" ++
   newline ++ "This function returns domain result set from the " ++
   "supplied input" ++
   newline ++ "usage:" ++ newline ++ tab ++
   "make_drs( table name/hit id | [table name/hit " ++
   "id, drs/hit/string/int] )" ++
   newline ++ "e.g.:" ++ newline ++ tab ++ "make_drs(1600820766)")%string.

(** [for drs in general_input: combined_drs = self.union(combined_drs, drs)].
    The loop variable [drs] is a local of [make_drs] that the code reads
    after the [try] statement: the loop answers it beside its outcome,
    [None] while it is unbound. *)
Fixpoint make_drs_unions (self : Algebra) (general_input : list ref)
    (combined_drs : ref) (drs : option ref)
  : state -> outcome ref * option ref * state :=
  match general_input with
  | [] => fun s => (Return combined_drs, drs, s)
  | drs :: general_input' => fun s =>
      match union self (GDRS combined_drs) (GDRS drs) s with
      | (Return combined_drs, s') =>
          make_drs_unions self general_input' combined_drs (Some drs) s'
      | (Raise e, s') => (Raise e, Some drs, s')
      end
  end.

(** The body of the [try] statement. *)
Definition make_drs_try (self : Algebra) (general_input : make_input)
  : state -> outcome ref * option ref * state :=
  fun s =>
    match general_input with
    | Many general_input =>
        match comprehension (_general_to_drs self) general_input s with
        | (Raise e, s1) => (Raise e, None, s1)
        | (Return general_input, s1) =>
            match DRS_init [] (mkOperation NONE []) s1 with
            | (Raise e, s2) => (Raise e, None, s2)
            | (Return combined_drs, s2) =>
                match make_drs_unions self general_input combined_drs None s2
                with
                | (Raise e, drs, s3) => (Raise e, drs, s3)
                | (Return combined_drs, drs, s3) =>
                    let general_input := GDRS combined_drs in
                    let '(o_drs, s4) := _general_to_drs self general_input s3
                    in (o_drs, drs, s4)
                end
            end
        end
    | One general_input =>
        let '(o_drs, s1) := _general_to_drs self general_input s in
        (o_drs, None, s1)
    end.

(** What leaves [make_drs]: a DRS, or the [UnboundLocalError] of
    [return drs] where the local [drs] has no value.  The bare [except:]
    lets no exception of the [try] block through. *)
Inductive made : Type :=
| Made (drs : ref)
| UnboundLocalError (name : string).

(** [make_drs] answers its result, the lines it printed and the state. *)
Definition make_drs (self : Algebra) (general_input : make_input)
  : state -> made * list string * state :=
  fun s =>
    match make_drs_try self general_input s with
    | (Return o_drs, _, s') => (Made o_drs, [], s')
    | (Raise _, Some drs, s') => (Made drs, [make_drs_msg], s')
    | (Raise _, None, s') => (UnboundLocalError "drs", [make_drs_msg], s')
    end.

End Engine.

(** ** A small catalog

    One database [dbA] with the table [orders] (columns [customer_id], nid 42,
    and [order_id], nid 43) and the table [customers] (column [id], nid 50).
    Hit 7 stands for the table [orders] as a whole: its field is empty. *)
Module Catalog.

Definition customer_id : Hit :=
  mkHit 42 "dbA" "orders" (Some "customer_id") float_zero.
Definition order_id : Hit :=
  mkHit 43 "dbA" "orders" (Some "order_id") float_zero.
Definition customers_id : Hit :=
  mkHit 50 "dbA" "customers" (Some "id") float_zero.
Definition orders_table : Hit :=
  mkHit 7 "dbA" "orders" (Some "") (NInt 0).

Definition columns_of (table : string) : list Hit :=
  if String.eqb table "orders" then [customer_id; order_id]
  else if String.eqb table "customers" then [customers_id]
  else [].

Definition info_for (nid : string)
  : list (Z * string * string * option string) :=
  if String.eqb nid "42" then [(42, "dbA", "orders", Some "customer_id")]
  else if String.eqb nid "43" then [(43, "dbA", "orders", Some "order_id")]
  else if String.eqb nid "50" then [(50, "dbA", "customers", Some "id")]
  else if String.eqb nid "7" then [(7, "dbA", "orders", Some "")]
  else [].

(** [orders.customer_id] and [customers.id] are neighbors of each other. *)
Definition neighbors (h : Hit) : list Hit :=
  if Z.eqb (nid h) 42 then [customers_id]
  else if Z.eqb (nid h) 50 then [customer_id]
  else [].

Definition network : Network := {|
  get_info_for := fun _ nids => flat_map info_for nids;
  get_hits_from_table := fun _ table => columns_of table;
  neighbors_id := fun _ h _ =>
    {| data := neighbors h; mode := FIELDS;
       provenance := [mkOperation (OP_other "PKFK") [ParamHit h]] |};
  find_path_hit := fun _ h1 h2 _ _ =>
    {| data := if has_nid (nid h2) (neighbors h1) then [h1; h2] else [];
       mode := FIELDS;
       provenance := [mkOperation (OP_other "PKFK") [ParamHit h1]] |};
  find_path_table := fun _ h1 h2 _ _ =>
    {| data := []; mode := TABLE;
       provenance := [mkOperation (OP_other "PKFK") [ParamHit h1]] |}
|}.

(** The store numbers its annotations by the calls it has seen. *)
Definition store_client : Store := {|
  add_annotation := fun log author text md_class source target =>
    mkMDHit (pretty (Z.of_nat (length log))) author text md_class source
            target;
  get_metadata := fun _ _ _ _ => []
|}.

Definition api : ApiUtils := {|
  id_from := fun db source field =>
    Z.of_nat (String.length db + String.length source + String.length field)
|}.

Definition self : Algebra := __init__ network store_client.

(** The objects of the store: at 0, the FIELDS-mode DRS of the two columns
    of [orders]; at 1, a FIELDS-mode DRS of [customers.id]; at 2, a
    TABLE-mode DRS of the Hit that stands for [orders]. *)
Definition orders_columns : DRS :=
  {| data := [customer_id; order_id]; mode := FIELDS;
     provenance := [mkOperation KW_LOOKUP [ParamStr "order"]] |}.

Definition customers_column : DRS :=
  {| data := [customers_id]; mode := FIELDS;
     provenance := [mkOperation ORIGIN []] |}.

Definition orders_placeholder : DRS :=
  {| data := [orders_table]; mode := TABLE;
     provenance := [mkOperation OP_TABLE [ParamHit orders_table]] |}.

Definition objects : state := {|
  heap := [orders_columns; customers_column; orders_placeholder];
  calls := []
|}.

(** An instance on which the attribute [_Algebra__network] has been set by
    hand, beside those of [__init__]. *)
Definition patched : Algebra :=
  <["_Algebra__network" := AttrNetwork network]> self.

End Catalog.



(** * Properties *)

(** ** Running the monad *)

Lemma bind_Return {A B} (m : M A) (k : A -> M B) s a s' :
  m s = (Return a, s') -> bind m k s = k a s'.
Proof. intros E. unfold bind. now rewrite E. Qed.

Lemma bind_Raise {A B} (m : M A) (k : A -> M B) s e s' :
  m s = (Raise e, s') -> bind m k s = (Raise e, s').
Proof. intros E. unfold bind. now rewrite E. Qed.

(** A run of [bind m k] that returns went through a run of [m] that
    returned. *)
Lemma bind_inv {A B} (m : M A) (k : A -> M B) s b s2 :
  bind m k s = (Return b, s2) ->
  exists a s1, m s = (Return a, s1) /\ k a s1 = (Return b, s2).
Proof.
  unfold bind. destruct (m s) as [[a|e] s1]; intros E.
  - now exists a, s1.
  - discriminate.
Qed.

Ltac step E := rewrite (bind_Return _ _ _ _ _ E).
Ltac stop E := rewrite (bind_Raise _ _ _ _ _ E).

Lemma load_run r s d : heap s !! r = Some d -> load r s = (Return d, s).
Proof. intros E. unfold load. now rewrite E. Qed.

Lemma get_mode_run r s d :
  heap s !! r = Some d -> get_mode r s = (Return (mode d), s).
Proof. intros E. unfold get_mode. now step (load_run _ _ _ E). Qed.

Lemma iter_run r s d :
  heap s !! r = Some d -> iter r s = (Return (data d), s).
Proof. intros E. unfold iter. now step (load_run _ _ _ E). Qed.

Lemma update_run r f s d :
  heap s !! r = Some d ->
  update r f s =
  (Return tt, {| heap := <[r := f d]> (heap s); calls := calls s |}).
Proof. intros E. unfold update. now step (load_run _ _ _ E). Qed.

Lemma DRSMode_eqb_eq a b : DRSMode_eqb a b = true <-> a = b.
Proof. destruct a, b; simpl; split; congruence. Qed.

Lemma _assert_same_mode_run a b s da db :
  heap s !! a = Some da -> heap s !! b = Some db ->
  _assert_same_mode a b s =
  if DRSMode_eqb (mode da) (mode db) then (Return tt, s)
  else (Raise (AssertionError error_text), s).
Proof.
  intros Ea Eb. unfold _assert_same_mode.
  step (get_mode_run _ _ _ Ea). step (get_mode_run _ _ _ Eb).
  now destruct (DRSMode_eqb _ _).
Qed.

(** The attributes that [__init__] binds, and the one it does not. *)
Lemma init_network network store_client :
  attr_network (__init__ network store_client) "_network" = ret network.
Proof. reflexivity. Qed.

Lemma init_store network store_client :
  attr_store (__init__ network store_client) "_store_client"
  = ret store_client.
Proof. reflexivity. Qed.

Lemma init_private network store_client :
  __init__ network store_client !! "_Algebra__network" = None.
Proof. reflexivity. Qed.


(** ** The calls of the normalizer *)

(** The two lookups of the Network that the normalizer uses. *)
Definition lookup_event (ev : Event) : bool :=
  match ev with
  | Call_get_info_for _ | Call_get_hits_from_table _ => true
  | _ => false
  end.

(** [m] only ever adds lookups to the log, whatever its outcome. *)
Definition only_lookups {A} (m : M A) : Prop :=
  forall s r s', m s = (r, s') ->
  exists evs, calls s' = calls s ++ evs /\ forallb lookup_event evs = true.

Lemma only_lookups_ret {A} (a : A) : only_lookups (ret a).
Proof.
  intros s r s' [= <- <-]. exists []. now rewrite app_nil_r.
Qed.

Lemma only_lookups_raise {A} e : only_lookups (@raise A e).
Proof.
  intros s r s' [= <- <-]. exists []. now rewrite app_nil_r.
Qed.

Lemma only_lookups_bind {A B} (m : M A) (k : A -> M B) :
  only_lookups m -> (forall a, only_lookups (k a)) ->
  only_lookups (bind m k).
Proof.
  intros Hm Hk s r s'. unfold bind.
  destruct (m s) as [[a|e] s1] eqn:E; intros R.
  - destruct (Hm _ _ _ E) as (l1 & E1 & F1).
    destruct (Hk a _ _ _ R) as (l2 & E2 & F2).
    exists (l1 ++ l2). rewrite E2, E1, <- app_assoc. split; [reflexivity|].
    rewrite forallb_app, F1, F2. reflexivity.
  - injection R as <- <-. eapply Hm, E.
Qed.

Lemma only_lookups_alloc d : only_lookups (alloc d).
Proof.
  intros s r s' [= <- <-]. exists []. simpl. now rewrite app_nil_r.
Qed.

Lemma only_lookups_load r : only_lookups (load r).
Proof.
  intros s o s'. unfold load.
  destruct (heap s !! r); intros [= <- <-]; exists []; now rewrite app_nil_r.
Qed.

Lemma only_lookups_update r f : only_lookups (update r f).
Proof.
  apply only_lookups_bind; [apply only_lookups_load|].
  intros d s o s' [= <- <-]. exists []. simpl. now rewrite app_nil_r.
Qed.

Lemma only_lookups_call {A} ev (answer : list Event -> A) :
  lookup_event ev = true -> only_lookups (call ev answer).
Proof.
  intros L s r s' [= <- <-]. exists [ev]. simpl. now rewrite L.
Qed.

Lemma only_lookups_attr_network self name :
  only_lookups (attr_network self name).
Proof.
  unfold attr_network. destruct (self !! name) as [[n|st]|];
    auto using only_lookups_ret, only_lookups_raise.
Qed.

Create HintDb lookups.

#[local] Hint Resolve only_lookups_ret only_lookups_raise only_lookups_alloc
  only_lookups_load only_lookups_update only_lookups_attr_network
  : lookups.

Ltac lookups :=
  repeat first
    [ solve [auto with lookups]
    | apply only_lookups_call; reflexivity
    | apply only_lookups_bind; [|intros ?]
    | match goal with
      | |- only_lookups (match ?x with _ => _ end) => destruct x
      | |- only_lookups (if ?b then _ else _) => destruct b
      end ].

Lemma only_lookups_DRS_init hits operation :
  only_lookups (DRS_init hits operation).
Proof. unfold DRS_init. lookups. Qed.

#[local] Hint Resolve only_lookups_DRS_init : lookups.

Lemma only_lookups__nid_to_hit self nid : only_lookups (_nid_to_hit self nid).
Proof. unfold _nid_to_hit. lookups. Qed.

Lemma only_lookups__hit_to_drs self hit table_mode :
  only_lookups (_hit_to_drs self hit table_mode).
Proof. unfold _hit_to_drs, set_table_mode. lookups. Qed.

#[local] Hint Resolve only_lookups__nid_to_hit only_lookups__hit_to_drs
  : lookups.

Section Normalizer.

Context {api : ApiUtils}.

Lemma only_lookups__general_to_drs self general_input :
  only_lookups (_general_to_drs self general_input).
Proof.
  unfold _general_to_drs, _node_to_hit.
  destruct general_input; lookups.
Qed.

End Normalizer.


Section Rejections.

Context {api : ApiUtils}.

Lemma _general_to_drs_DRS self r s :
  _general_to_drs self (GDRS r) s = (Return r, s).
Proof. reflexivity. Qed.

(** C4: operands that normalize to DRSs of different modes make [union],
    [intersection] and [difference] raise the AssertionError of
    [_assert_same_mode] (the ModeMismatch condition) in the very state the
    normalization left: no DRS has been read through or updated, and no
    result exists. *)
Theorem mode_mismatch_rejected self a b s la s1 lb s2 da db :
  _general_to_drs self a s = (Return la, s1) ->
  _general_to_drs self b s1 = (Return lb, s2) ->
  heap s2 !! la = Some da ->
  heap s2 !! lb = Some db ->
  DRSMode_eqb (mode da) (mode db) = false ->
  union self a b s = (Raise (AssertionError error_text), s2) /\
  intersection self a b s = (Raise (AssertionError error_text), s2) /\
  difference self a b s = (Raise (AssertionError error_text), s2).
Proof.
  intros Na Nb Ea Eb Hm.
  assert (Hassert : _assert_same_mode la lb s2
                    = (Raise (AssertionError error_text), s2)).
  { rewrite (_assert_same_mode_run _ _ _ _ _ Ea Eb). now rewrite Hm. }
  repeat split.
  - unfold union. step Na. step Nb. now stop Hassert.
  - unfold intersection. step Na. step Nb. now stop Hassert.
  - unfold difference. step Na. step Nb.
    step (_general_to_drs_DRS self la s2).
    step (_general_to_drs_DRS self lb s2).
    now stop Hassert.
Qed.

(** C8: [annotate], and [md_search] on an input other than [None], raise
    the ValueError of their mode test (the InvalidMode condition) as soon as
    a normalized operand is not in FIELDS mode.  The state is the one the
    normalization left, and the normalization added nothing but Network
    lookups to the log: no Store call has been made. *)
Theorem invalid_mode_rejected self :
  (forall author text md_class general_source ref s source s1 target s2
          dsource dtarget,
    _general_to_drs self general_source s = (Return source, s1) ->
    _general_to_drs self (general_target ref) s1 = (Return target, s2) ->
    heap s2 !! source = Some dsource ->
    heap s2 !! target = Some dtarget ->
    DRSMode_eqb (mode dsource) FIELDS && DRSMode_eqb (mode dtarget) FIELDS
      = false ->
    annotate self author text md_class general_source ref s
    = (Raise (ValueError "source and targets must be columns"), s2) /\
    exists evs, calls s2 = calls s ++ evs /\
                forallb lookup_event evs = true) /\
  (forall general_input relation s drs_nodes s1 d,
    general_input <> GNone ->
    _general_to_drs self general_input s = (Return drs_nodes, s1) ->
    heap s1 !! drs_nodes = Some d ->
    DRSMode_eqb (mode d) FIELDS = false ->
    md_search self general_input relation s
    = (Raise (ValueError "general_input must be columns"), s1) /\
    exists evs, calls s1 = calls s ++ evs /\
                forallb lookup_event evs = true).
Proof.
  split.
  - intros author text md_class general_source ref s source s1 target s2
           dsource dtarget Ns Nt Es Et Hm.
    destruct (only_lookups__general_to_drs _ _ _ _ _ Ns) as (l1 & E1 & F1).
    destruct (only_lookups__general_to_drs _ _ _ _ _ Nt) as (l2 & E2 & F2).
    split.
    + unfold annotate. step Ns. step Nt.
      step (get_mode_run _ _ _ Es). step (get_mode_run _ _ _ Et).
      rewrite <- negb_andb, Hm. reflexivity.
    + exists (l1 ++ l2). rewrite E2, E1, <- app_assoc, forallb_app, F1, F2.
      now split.
  - intros general_input relation s drs_nodes s1 d Hnone N E Hm.
    split; [|exact (only_lookups__general_to_drs _ _ _ _ _ N)].
    unfold md_search.
    destruct general_input; try congruence;
      step N; step (get_mode_run _ _ _ E); now rewrite Hm.
Qed.

End Rejections.


Section Normalized.

Context {api : ApiUtils}.

(** The accumulator [DRS([], Operation(OP.NONE))]. *)
Definition empty_drs : DRS :=
  {| data := []; mode := FIELDS; provenance := [mkOperation NONE []] |}.

Lemma DRS_init_empty s :
  DRS_init [] (mkOperation NONE []) s
  = (Return (length (heap s)),
     {| heap := heap s ++ [empty_drs]; calls := calls s |}).
Proof. reflexivity. Qed.

(** C2, as the code has it: an input that normalizes to a TABLE-mode DRS
    makes [traverse] raise the ValueError of its mode test (the
    UnsupportedMode condition), with the empty accumulator as the only new
    object.  The log is the one the normalization left: it holds the lookups
    of the normalization, none at all when the input is a DRS, and no
    [neighbors_id] query. *)
Theorem traverse_table_rejected self a primitive max_hops s l s1 d :
  _general_to_drs self a s = (Return l, s1) ->
  heap s1 !! l = Some d ->
  DRSMode_eqb (mode d) TABLE = true ->
  traverse self a primitive max_hops s
  = (Raise (ValueError "input mode DRSMode.TABLE not supported"),
     {| heap := heap s1 ++ [empty_drs]; calls := calls s1 |}) /\
  (exists evs, calls s1 = calls s ++ evs /\
               forallb lookup_event evs = true) /\
  (forall r, a = GDRS r -> calls s1 = calls s).
Proof.
  intros N E Hm. split; [|split].
  - unfold traverse. step N. step (DRS_init_empty s1).
    assert (E' : heap {| heap := heap s1 ++ [empty_drs]; calls := calls s1 |}
                 !! l = Some d).
    { simpl. now apply lookup_app_l_Some. }
    step (get_mode_run _ _ _ E'). now rewrite Hm.
  - exact (only_lookups__general_to_drs _ _ _ _ _ N).
  - intros r ->. now injection N as _ <-.
Qed.

(** C10: with a relation type in [ref], and the DRS that is the source after
    the swap empty, [annotate] makes no Store call and runs off its end: it
    answers [None], no MRS. *)
Theorem annotate_empty_source_returns_None self author text md_class
    general_source ref ref_type s source s1 target s2 dsource dtarget :
  type ref = Some ref_type ->
  _general_to_drs self general_source s = (Return source, s1) ->
  _general_to_drs self (general_target ref) s1 = (Return target, s2) ->
  heap s2 !! source = Some dsource ->
  heap s2 !! target = Some dtarget ->
  DRSMode_eqb (mode dsource) FIELDS && DRSMode_eqb (mode dtarget) FIELDS
    = true ->
  data (if (_mdrelation_to_str ref_type).2 then dsource else dtarget) = [] ->
  annotate self author text md_class general_source ref s = (Return None, s2).
Proof.
  intros Ht Ns Nt Es Et Hm Hempty.
  unfold annotate. step Ns. step Nt.
  step (get_mode_run _ _ _ Es). step (get_mode_run _ _ _ Et).
  rewrite <- negb_andb, Hm, Ht.
  destruct (_mdrelation_to_str ref_type) as [md_relation nid_is_source].
  simpl in Hempty. destruct nid_is_source; cbn [negb].
  - step (iter_run _ _ _ Es). now rewrite Hempty.
  - step (iter_run _ _ _ Et). now rewrite Hempty.
Qed.

(** C7: an input that [int] accepts, an int or a numeric string, is looked
    up with one [get_info_for] call on its [str]; the first row of the
    answer becomes a Hit of score [0.0].  Where the field of that Hit is
    defined, the normalizer answers a new DRS that holds this one Hit, in
    FIELDS mode, tagged ORIGIN. *)
Theorem integer_input_resolved network store_client x s nid db source field
    rows :
  _represents_int x = true ->
  get_info_for network (calls s) [str x] = (nid, db, source, field) :: rows ->
  let self := __init__ network store_client in
  let hit := mkHit nid db source field float_zero in
  let s1 := {| heap := heap s;
               calls := calls s ++ [Call_get_info_for [str x]] |} in
  _nid_to_hit self x s = (Return hit, s1) /\
  (field_undefined field = false ->
   _general_to_drs self x s
   = (Return (length (heap s)),
      {| heap := heap s ++ [{| data := [hit]; mode := FIELDS;
                               provenance := [mkOperation ORIGIN []] |}];
         calls := calls s1 |})).
Proof.
  intros Hint Hrow self hit s1.
  assert (Hnid : _nid_to_hit self x s = (Return hit, s1)).
  { unfold _nid_to_hit. subst self. rewrite init_network.
    unfold bind at 1, ret at 1, bind at 1, call at 1. now rewrite Hrow. }
  split; [exact Hnid|]. intros Hfield.
  assert (Hhit : (h <- _nid_to_hit self x ;; ret (GHit h)) s
                 = (Return (GHit hit), s1)) by now step Hnid.
  assert (Hdrs : (if field_undefined (field_name hit)
                  then r <- _hit_to_drs self hit true ;; ret (GDRS r)
                  else r <- _hit_to_drs self hit false ;; ret (GDRS r)) s1
                 = (Return (GDRS (length (heap s))),
                    {| heap := heap s ++ [{| data := [hit]; mode := FIELDS;
                           provenance := [mkOperation ORIGIN []] |}];
                       calls := calls s1 |})).
  { change (field_name hit) with field. now rewrite Hfield. }
  unfold _general_to_drs.
  destruct x as [| |n|t| | |]; try discriminate Hint.
  - (* an int *)
    step (eq_refl (ret (GInt n) s)). simpl _represents_int. cbv iota.
    step Hhit. step (eq_refl (ret (GHit hit) s1)).
    step (eq_refl (ret (GHit hit) s1)). now step Hdrs.
  - (* a numeric string *)
    step (eq_refl (ret (GStr t) s)). rewrite Hint.
    step Hhit. step (eq_refl (ret (GHit hit) s1)).
    step (eq_refl (ret (GHit hit) s1)). now step Hdrs.
Qed.

End Normalized.

(** ** The store of objects *)

Lemma alloc_run d s :
  alloc d s = (Return (length (heap s)),
               {| heap := heap s ++ [d]; calls := calls s |}).
Proof. reflexivity. Qed.

Lemma DRS_init_run hits operation s :
  DRS_init hits operation s
  = (Return (length (heap s)),
     {| heap := heap s ++ [{| data := union_hits [] hits; mode := FIELDS;
                              provenance := [operation] |}];
        calls := calls s |}).
Proof. reflexivity. Qed.

Lemma lookup_old {A} (l : list A) x r d :
  l !! r = Some d -> (l ++ [x]) !! r = Some d.
Proof. intros E. now apply lookup_app_l_Some. Qed.

Lemma lookup_new {A} (l : list A) x : (l ++ [x]) !! length l = Some x.
Proof. now rewrite lookup_app_r, Nat.sub_diag by lia. Qed.

Lemma lookup_other {A} (l : list A) r r' x d :
  l !! r = Some d -> r <> r' -> <[r' := x]> l !! r = Some d.
Proof. intros E N. now rewrite list_lookup_insert_ne by congruence. Qed.

Lemma lookup_updated {A} (l : list A) r x d :
  l !! r = Some d -> <[r := x]> l !! r = Some x.
Proof.
  intros E. apply list_lookup_insert_eq. now apply lookup_lt_Some in E.
Qed.

Lemma absorb_provenance_run self other s d o :
  heap s !! self = Some d -> heap s !! other = Some o ->
  absorb_provenance self other s
  = (Return self,
     {| heap := <[self := {| data := data d; mode := mode d;
                             provenance := provenance d ++ provenance o |}]>
                  (heap s);
        calls := calls s |}).
Proof.
  intros Ed Eo. unfold absorb_provenance.
  step (load_run _ _ _ Eo).
  now erewrite bind_Return by (apply update_run; exact Ed).
Qed.

Lemma absorb_run self other s d o :
  heap s !! self = Some d -> heap s !! other = Some o ->
  absorb self other s
  = (Return self,
     {| heap := <[self := {| data := union_hits (data d) (data o);
                             mode := mode d;
                             provenance := provenance d ++ provenance o |}]>
                  (heap s);
        calls := calls s |}).
Proof.
  intros Ed Eo. unfold absorb.
  step (load_run _ _ _ Eo).
  now erewrite bind_Return by (apply update_run; exact Ed).
Qed.

Section Traversal.

Context {api : ApiUtils}.

(** C1: [traverse] does not complete its rounds.  On an instance built by
    [__init__], with a seed in FIELDS mode that holds a Hit and
    [max_hops >= 1], the first round reads [self.__network], the attribute
    [_Algebra__network], which no instance has: the call raises
    [AttributeError] before a single neighbor query, and returns no DRS. *)
Theorem traverse_raises_AttributeError network store_client a primitive
    max_hops s l s1 d h hs :
  let self := __init__ network store_client in
  _general_to_drs self a s = (Return l, s1) ->
  heap s1 !! l = Some d ->
  mode d = FIELDS ->
  data d = h :: hs ->
  0 < max_hops ->
  exists s2,
    traverse self a primitive max_hops s
    = (Raise (AttributeError "_Algebra__network"), s2) /\
    calls s2 = calls s1.
Proof.
  intros self N E Hm Hd Hk. unfold traverse.
  step N. step (DRS_init_run [] (mkOperation NONE []) s1).
  assert (El := lookup_old _ (empty_drs) _ _ E).
  step (get_mode_run _ {| heap := heap s1 ++ [empty_drs];
                          calls := calls s1 |} _ El).
  rewrite Hm. cbn [DRSMode_eqb].
  assert (Eo := lookup_new (heap s1) empty_drs).
  step (absorb_provenance_run _ _ {| heap := heap s1 ++ [empty_drs];
                                     calls := calls s1 |} _ _ Eo El).
  destruct (Z.to_nat max_hops) as [|rounds] eqn:Ek; [lia|].
  cbn [traverse_rounds].
  assert (l <> length (heap s1))
    by (apply lookup_lt_Some in E; lia).
  match goal with
  | |- context [bind (iter l) _ ?s'] =>
      assert (Ei : iter l s' = (Return (data d), s'))
        by (apply iter_run; cbn [heap]; now apply lookup_other)
  end.
  step Ei. rewrite Hd. cbn [for_each].
  eexists. split.
  - unfold bind at 1. unfold bind at 1. unfold bind at 1.
    unfold attr_network. subst self. rewrite init_private. reflexivity.
  - reflexivity.
Qed.

End Traversal.

(** ** What [traverse] accumulates *)

Lemma In_union_hits h ys : forall xs,
  In h (union_hits xs ys) -> In h xs \/ In h ys.
Proof.
  unfold union_hits. induction ys as [|y ys IH]; intros xs H; simpl in *.
  - now left.
  - apply IH in H as [H|H]; [|now right; right].
    destruct (has_nid (nid y) xs); [now left|].
    apply in_app_or in H as [H|[H|[]]]; [now left|now right; left].
Qed.

Lemma iter_inv r s hs s' :
  iter r s = (Return hs, s') ->
  s' = s /\ exists d, heap s !! r = Some d /\ hs = data d.
Proof.
  unfold iter, bind, load, ret. destruct (heap s !! r) as [d|]; [|discriminate].
  intros [= <- <-]. eauto.
Qed.

Section Accumulator.

Context {api : ApiUtils}.
Variable self : Algebra.
Variable primitive : Relation.

(** [h] is in the answer to a [neighbors_id] query of the trace. *)
Definition answered (trace : list Event) (h : Hit) : Prop :=
  exists net log q rest,
    self !! "_Algebra__network" = Some (AttrNetwork net) /\
    trace = log ++ Call_neighbors_id q primitive :: rest /\
    In h (data (neighbors_id net log q primitive)).

Lemma answered_app trace more h :
  answered trace h -> answered (trace ++ more) h.
Proof.
  intros (net & log & q & rest & A & -> & H).
  exists net, log, q, (rest ++ more). now rewrite <- app_assoc.
Qed.

(** The accumulator is in the store and holds answered Hits only. *)
Definition accumulates (o : ref) (s : state) : Prop :=
  exists d, heap s !! o = Some d /\ Forall (answered (calls s)) (data d).

Definition round_body (h : Hit) (o_drs : ref) : M ref :=
  net <- attr_network self "_Algebra__network" ;;
  hits_drs <- call_drs (Call_neighbors_id h primitive)
                       (fun log => neighbors_id net log h primitive) ;;
  union self (GDRS o_drs) (GDRS hits_drs).

Lemma round_body_inv h o s o' s' :
  accumulates o s ->
  round_body h o s = (Return o', s') ->
  o' = o /\ accumulates o s'.
Proof.
  intros (d & E & F). unfold round_body, attr_network.
  destruct (self !! "_Algebra__network") as [[net|st]|] eqn:A;
    [|discriminate..].
  step (eq_refl (ret net s)).
  set (ans := neighbors_id net (calls s) h primitive).
  set (s1 := {| heap := heap s ++ [ans];
                calls := calls s ++ [Call_neighbors_id h primitive] |}).
  assert (C : call_drs (Call_neighbors_id h primitive)
                (fun log => neighbors_id net log h primitive) s
              = (Return (length (heap s)), s1)) by reflexivity.
  step C. unfold union.
  step (eq_refl (ret o s1)). step (eq_refl (ret (length (heap s)) s1)).
  assert (Eo : heap s1 !! o = Some d) by now apply lookup_old.
  assert (Ea : heap s1 !! length (heap s) = Some ans) by apply lookup_new.
  assert (Am := _assert_same_mode_run _ _ _ _ _ Eo Ea).
  destruct (DRSMode_eqb (mode d) (mode ans)); [step Am|now stop Am].
  unfold DRS_union. step (load_run _ _ _ Ea).
  erewrite bind_Return by (apply update_run; exact Eo).
  intros [= <- <-]. split; [reflexivity|].
  eexists. split; [cbn [heap]; now apply (lookup_updated _ _ _ _ Eo)|].
  cbn [data calls]. apply List.Forall_forall. intros x Hx.
  apply In_union_hits in Hx as [Hx|Hx].
  - apply answered_app. revert x Hx. now apply List.Forall_forall.
  - exists net, (calls s), h, []. auto.
Qed.

Lemma round_loop_inv hits : forall o s o' s',
  accumulates o s ->
  for_each hits o round_body s = (Return o', s') ->
  o' = o /\ accumulates o s'.
Proof.
  induction hits as [|h hits IH]; intros o s o' s' Acc; cbn [for_each].
  - now intros [= <- <-].
  - intros R. apply bind_inv in R as (o1 & s1 & B & R).
    apply (round_body_inv _ _ _ _ _ Acc) in B as [-> Acc1].
    now apply (IH _ _ _ _ Acc1 R).
Qed.

Lemma traverse_rounds_inv rounds : forall fringe o s o' s',
  accumulates o s ->
  traverse_rounds self primitive rounds fringe o s = (Return o', s') ->
  o' = o /\ accumulates o s'.
Proof.
  induction rounds as [|rounds IH]; intros fringe o s o' s' Acc;
    cbn [traverse_rounds].
  - now intros [= <- <-].
  - intros R. apply bind_inv in R as (hits & s1 & I & R).
    apply iter_inv in I as [-> _].
    apply bind_inv in R as (o1 & s1 & L & R).
    apply (round_loop_inv _ _ _ _ _ Acc) in L as [-> Acc1].
    now apply (IH _ _ _ _ _ Acc1 R).
Qed.

(** C9: the accumulator of [traverse] starts empty and takes the trail of
    the seed only.  With [max_hops <= 0] the call returns a new DRS without
    Hits, whatever the seed holds; and whenever [traverse] returns, each Hit
    of the returned DRS is in the answer to a [neighbors_id] query of the
    run: a Hit of the seed is there only if a query answered it. *)
Theorem traverse_holds_only_neighbors a max_hops s l s1 d :
  _general_to_drs self a s = (Return l, s1) ->
  heap s1 !! l = Some d ->
  mode d = FIELDS ->
  (max_hops <= 0 ->
   exists s2,
     traverse self a primitive max_hops s = (Return (length (heap s1)), s2) /\
     heap s2 !! length (heap s1)
     = Some {| data := []; mode := FIELDS;
               provenance := mkOperation NONE [] :: provenance d |} /\
     calls s2 = calls s1) /\
  (forall o s2,
     traverse self a primitive max_hops s = (Return o, s2) ->
     exists r, heap s2 !! o = Some r /\
               Forall (answered (calls s2)) (data r)).
Proof.
  intros N E Hm.
  assert (El := lookup_old _ (empty_drs) _ _ E).
  assert (Eo := lookup_new (heap s1) empty_drs).
  assert (T : traverse self a primitive max_hops s
              = traverse_rounds self primitive (Z.to_nat max_hops) l
                  (length (heap s1))
                  {| heap := <[length (heap s1) :=
                        {| data := []; mode := FIELDS;
                           provenance := mkOperation NONE [] :: provenance d |}]>
                        (heap s1 ++ [empty_drs]);
                     calls := calls s1 |}).
  { unfold traverse. step N. step (DRS_init_run [] (mkOperation NONE []) s1).
    step (get_mode_run _ {| heap := heap s1 ++ [empty_drs];
                            calls := calls s1 |} _ El).
    rewrite Hm. cbn [DRSMode_eqb].
    now step (absorb_provenance_run _ _ {| heap := heap s1 ++ [empty_drs];
                                           calls := calls s1 |} _ _ Eo El). }
  rewrite T. split.
  - intros Hk. replace (Z.to_nat max_hops) with O by lia.
    eexists. split; [reflexivity|]. split; [|reflexivity].
    cbn [heap]. now apply (lookup_updated _ _ _ _ Eo).
  - intros o s2 R. apply traverse_rounds_inv in R as [-> Acc]; [exact Acc|].
    eexists. split; [cbn [heap]; now apply (lookup_updated _ _ _ _ Eo)|].
    constructor.
Qed.

End Accumulator.

(** ** The trail of [paths] *)

Lemma attr_network_run (self : Algebra) name net :
  self !! name = Some (AttrNetwork net) -> attr_network self name = ret net.
Proof. intros E. unfold attr_network. now rewrite E. Qed.

Lemma call_drs_run ev answer s :
  call_drs ev answer s
  = (Return (length (heap s)),
     {| heap := heap s ++ [answer (calls s)]; calls := calls s ++ [ev] |}).
Proof. reflexivity. Qed.

(** [part] is a run of consecutive operations of [whole]. *)
Definition contains_trail (whole part : list Operation) : Prop :=
  exists before after, whole = before ++ part ++ after.

Section Paths.

Context {api : ApiUtils}.
Variables (self : Algebra) (net : Network).
Hypothesis bound : self !! "_network" = Some (AttrNetwork net).
Variables (relation : Relation) (max_hops : Z).
Variables (drs_a : ref) (da : DRS).

Definition paths_body : Hit * Hit -> ref -> M ref :=
  fun '(h1, h2) o_drs =>
    m <- get_mode drs_a ;;
    res_drs <-
      (if DRSMode_eqb m FIELDS
       then net <- attr_network self "_network" ;;
            call_drs (Call_find_path_hit h1 h2 relation max_hops)
              (fun log => find_path_hit net log h1 h2 relation max_hops)
       else net <- attr_network self "_network" ;;
            call_drs (Call_find_path_table h1 h2 relation max_hops)
              (fun log => find_path_table net log h1 h2 relation max_hops)) ;;
    absorb o_drs res_drs.

(** One pair leaves the operand as it is and appends to the trail of the
    output. *)
Lemma paths_body_run pair o s r :
  heap s !! drs_a = Some da -> heap s !! o = Some r -> drs_a <> o ->
  exists s' r' rest,
    paths_body pair o s = (Return o, s') /\
    heap s' !! drs_a = Some da /\ heap s' !! o = Some r' /\
    provenance r' = provenance r ++ rest.
Proof.
  intros Ea Eo Hne. destruct pair as [h1 h2]. unfold paths_body.
  step (get_mode_run _ _ _ Ea). rewrite (attr_network_run _ _ _ bound).
  assert (run : forall ev answer,
    (res_drs <- (n <- ret net ;; call_drs ev (answer n)) ;;
     absorb o res_drs) s
    = (Return o,
       {| heap := <[o := {| data := union_hits (data r)
                                      (data (answer net (calls s)));
                            mode := mode r;
                            provenance := provenance r ++
                              provenance (answer net (calls s)) |}]>
                    (heap s ++ [answer net (calls s)]);
          calls := calls s ++ [ev] |})).
  { intros ev answer.
    assert (C : (n <- ret net ;; call_drs ev (answer n)) s
                = (Return (length (heap s)),
                   {| heap := heap s ++ [answer net (calls s)];
                      calls := calls s ++ [ev] |})) by reflexivity.
    step C. apply absorb_run; cbn [heap].
    - now apply lookup_old.
    - apply lookup_new. }
  destruct (DRSMode_eqb (mode da) FIELDS).
  - eexists _, _, _. split; [apply (run _ (fun n log => _))|]. cbn [heap].
    split; [apply lookup_other; [now apply lookup_old|congruence]|].
    split; [apply (lookup_updated _ _ _ r); now apply lookup_old|].
    reflexivity.
  - eexists _, _, _. split; [apply (run _ (fun n log => _))|]. cbn [heap].
    split; [apply lookup_other; [now apply lookup_old|congruence]|].
    split; [apply (lookup_updated _ _ _ r); now apply lookup_old|].
    reflexivity.
Qed.

Lemma paths_loop_run pairs : forall o s r,
  heap s !! drs_a = Some da -> heap s !! o = Some r -> drs_a <> o ->
  exists s' r' rest,
    for_each pairs o paths_body s = (Return o, s') /\
    heap s' !! drs_a = Some da /\ heap s' !! o = Some r' /\
    provenance r' = provenance r ++ rest.
Proof.
  induction pairs as [|pair pairs IH]; intros o s r Ea Eo Hne;
    cbn [for_each].
  - exists s, r, []. now rewrite app_nil_r.
  - destruct (paths_body_run pair o s r Ea Eo Hne)
      as (s1 & r1 & rest1 & B & Ea1 & Eo1 & P1).
    destruct (IH o s1 r1 Ea1 Eo1 Hne) as (s2 & r2 & rest2 & L & Ea2 & Eo2 & P2).
    exists s2, r2, (rest1 ++ rest2). step B.
    repeat split; try assumption. now rewrite P2, P1, <- app_assoc.
Qed.

(** C5: on two operands of the same mode, [paths] returns a DRS whose trail
    holds the trail of [a] and the trail of [b], each as a run of consecutive
    operations, and is at least as long as the longer of the two. *)
Theorem paths_trail_contains_operands a b s s1 drs_b s2 db :
  _general_to_drs self a s = (Return drs_a, s1) ->
  _general_to_drs self b s1 = (Return drs_b, s2) ->
  heap s2 !! drs_a = Some da ->
  heap s2 !! drs_b = Some db ->
  mode da = mode db ->
  exists o s3 r,
    paths self a b relation max_hops s = (Return o, s3) /\
    heap s3 !! o = Some r /\
    contains_trail (provenance r) (provenance da) /\
    contains_trail (provenance r) (provenance db) /\
    (Nat.max (length (provenance da)) (length (provenance db))
     <= length (provenance r))%nat.
Proof.
  intros Na Nb Ea Eb Hm. unfold paths. step Na. step Nb.
  assert (Am := _assert_same_mode_run _ _ _ _ _ Ea Eb).
  rewrite Hm in Am. replace (DRSMode_eqb (mode db) (mode db)) with true in Am
    by now destruct (mode db).
  step Am. step (DRS_init_run [] (mkOperation NONE []) s2).
  set (o := length (heap s2)).
  set (sO := {| heap := heap s2 ++ [empty_drs]; calls := calls s2 |}).
  assert (Hao : drs_a <> o) by (apply lookup_lt_Some in Ea; subst o; lia).
  assert (Hbo : drs_b <> o) by (apply lookup_lt_Some in Eb; subst o; lia).
  assert (EaO : heap sO !! drs_a = Some da) by now apply lookup_old.
  assert (EoO : heap sO !! o = Some empty_drs) by apply lookup_new.
  step (absorb_provenance_run _ _ _ _ _ EoO EaO).
  set (rA := {| data := data empty_drs; mode := mode empty_drs;
                provenance := provenance empty_drs ++ provenance da |}).
  set (sA := {| heap := <[o := rA]> (heap sO); calls := calls sO |}).
  assert (EaA : heap sA !! drs_a = Some da) by now apply lookup_other.
  assert (EoA : heap sA !! o = Some rA) by now apply (lookup_updated _ _ _ _ EoO).
  destruct (Nat.eqb_spec drs_b drs_a) as [->|Hba]; cbn [negb].
  - (* one object on both sides *)
    assert (db = da) by congruence. subst db.
    step (eq_refl (ret tt sA)).
    step (iter_run _ _ _ EaA). step (iter_run _ _ _ EaA).
    destruct (paths_loop_run (list_prod (data da) (data da)) o sA rA EaA EoA Hao)
      as (s3 & r & rest & L & _ & Eo3 & P).
    exists o, s3, r. split; [exact L|]. split; [exact Eo3|].
    assert (C : contains_trail (provenance r) (provenance da))
      by (exists [mkOperation NONE []], rest; rewrite P; reflexivity).
    repeat split; try exact C.
    rewrite P. cbn [rA provenance empty_drs]. rewrite !length_app. lia.
  - (* two objects *)
    assert (EbA : heap sA !! drs_b = Some db)
      by (apply lookup_other; [now apply lookup_old|assumption]).
    assert (B : (absorb_provenance o drs_b ;;; ret tt) sA
                = (Return tt,
                   {| heap := <[o := {| data := data rA; mode := mode rA;
                         provenance := provenance rA ++ provenance db |}]>
                                (heap sA);
                      calls := calls sA |}))
      by now step (absorb_provenance_run _ _ _ _ _ EoA EbA).
    step B.
    set (rB := {| data := data rA; mode := mode rA;
                  provenance := provenance rA ++ provenance db |}).
    set (sB := {| heap := <[o := rB]> (heap sA); calls := calls sA |}).
    assert (EaB : heap sB !! drs_a = Some da) by now apply lookup_other.
    assert (EbB : heap sB !! drs_b = Some db) by now apply lookup_other.
    assert (EoB : heap sB !! o = Some rB)
      by now apply (lookup_updated _ _ _ _ EoA).
    step (iter_run _ _ _ EaB). step (iter_run _ _ _ EbB).
    destruct (paths_loop_run (list_prod (data da) (data db)) o sB rB EaB EoB Hao)
      as (s3 & r & rest & L & _ & Eo3 & P).
    exists o, s3, r. split; [exact L|]. split; [exact Eo3|].
    split; [|split].
    + exists [mkOperation NONE []], (provenance db ++ rest).
      rewrite P. cbn [rB rA provenance empty_drs].
      now rewrite <- !app_assoc.
    + exists (mkOperation NONE [] :: provenance da), rest.
      rewrite P. cbn [rB rA provenance empty_drs].
      now rewrite <- !app_assoc.
    + rewrite P. cbn [rB rA provenance empty_drs]. rewrite !length_app. lia.
Qed.

End Paths.

(** ** What [annotate] stores *)

Lemma bind_assoc {A B C} (m : M A) (k : A -> M B) (k' : B -> M C) s :
  bind (bind m k) k' s = bind m (fun a => bind (k a) k') s.
Proof. unfold bind. now destruct (m s) as [[a|e] s1]. Qed.

Section Annotations.

Context {api : ApiUtils}.
Variables (network : Network) (store_client : Store).
Variables (author text : string) (md_class : MDClass).

(** The Store call of [annotate] for one pair. *)
Definition annotation_of (md_relation : string) (hit_source hit_target : Hit)
  : Event :=
  Call_add_annotation author text (_mdclass_to_str md_class)
                      (nid hit_source) (Some (nid hit_target, md_relation)).

Lemma annotate_targets_run md_relation hit_source targets : forall md_hits s,
  exists md_hits',
    for_each targets md_hits (fun hit_target md_hits =>
      store <- attr_store (__init__ network store_client) "_store_client" ;;
      res <- call (Call_add_annotation author text
                     (_mdclass_to_str md_class)
                     (nid hit_source) (Some (nid hit_target, md_relation)))
                  (fun log => add_annotation store log author text
                                (_mdclass_to_str md_class) (nid hit_source)
                                (Some (nid hit_target, md_relation))) ;;
      ret (md_hits ++ [res])) s
    = (Return md_hits',
       {| heap := heap s;
          calls := calls s
                   ++ map (annotation_of md_relation hit_source) targets |}) /\
    length md_hits' = (length md_hits + length targets)%nat.
Proof.
  rewrite init_store.
  induction targets as [|t targets IH]; intros md_hits s; cbn [for_each map].
  - exists md_hits. rewrite app_nil_r. destruct s. split; [reflexivity|cbn [length]; lia].
  - match goal with
    | |- context [bind (bind (ret store_client) ?k) _ s] =>
        assert (B : bind (ret store_client) k s
                    = (Return (md_hits ++ [add_annotation store_client
                         (calls s) author text (_mdclass_to_str md_class)
                         (nid hit_source)
                         (Some (nid t, md_relation))]),
                       {| heap := heap s;
                          calls := calls s
                            ++ [annotation_of md_relation hit_source t] |}))
          by reflexivity
    end.
    destruct (IH (md_hits ++ [add_annotation store_client
                    (calls s) author text (_mdclass_to_str md_class)
                         (nid hit_source)
                    (Some (nid t, md_relation))])
                 {| heap := heap s;
                    calls := calls s
                      ++ [annotation_of md_relation hit_source t] |})
      as (md_hits' & L & Hlen).
    exists md_hits'. step B. rewrite L. cbn [heap calls].
    rewrite <- app_assoc. split; [reflexivity|].
    rewrite Hlen, length_app. cbn [length]. lia.
Qed.

(** C6: [annotate] does not store one annotation per pair.  With a relation
    type in [ref] and a source (after the swap) that holds the Hits
    [h :: hs], the Store calls of the run are those of the pairs of [h], the
    first source Hit, with each target Hit: the [return] in the loop over
    the source ends the run there.  The MRS has one entry per target Hit,
    and the pairs of the Hits [hs] are neither stored nor returned. *)
Theorem annotate_stores_first_source_only general_source ref ref_type s
    source s1 target s2 dsource dtarget h hs :
  let self := __init__ network store_client in
  let md_relation := (_mdrelation_to_str ref_type).1 in
  let nid_is_source := (_mdrelation_to_str ref_type).2 in
  type ref = Some ref_type ->
  _general_to_drs self general_source s = (Return source, s1) ->
  _general_to_drs self (general_target ref) s1 = (Return target, s2) ->
  heap s2 !! source = Some dsource ->
  heap s2 !! target = Some dtarget ->
  DRSMode_eqb (mode dsource) FIELDS && DRSMode_eqb (mode dtarget) FIELDS
    = true ->
  data (if nid_is_source then dsource else dtarget) = h :: hs ->
  exists mrs,
    annotate self author text md_class general_source ref s
    = (Return (Some mrs),
       {| heap := heap s2;
          calls := calls s2
            ++ map (annotation_of md_relation h)
                   (data (if nid_is_source then dtarget else dsource)) |}) /\
    length (mrs_data mrs)
    = length (data (if nid_is_source then dtarget else dsource)).
Proof.
  intros self md_relation nid_is_source Ht Ns Nt Es Et Hm Hsrc.
  unfold annotate. step Ns. step Nt.
  step (get_mode_run _ _ _ Es). step (get_mode_run _ _ _ Et).
  rewrite <- negb_andb, Hm, Ht. subst md_relation nid_is_source.
  destruct (_mdrelation_to_str ref_type) as [md_relation nid_is_source].
  cbn [fst snd] in *. destruct nid_is_source; cbn [negb].
  - step (iter_run _ _ _ Es). rewrite Hsrc. cbn [for_each_return].
    rewrite !bind_assoc. step (iter_run _ _ _ Et).
    destruct (annotate_targets_run md_relation h (data dtarget) [] s2)
      as (md_hits & L & Hlen).
    exists (mkMRS md_hits). subst self. rewrite !bind_assoc. step L. split; [reflexivity|].
    exact Hlen.
  - step (iter_run _ _ _ Et). rewrite Hsrc. cbn [for_each_return].
    rewrite !bind_assoc. step (iter_run _ _ _ Es).
    destruct (annotate_targets_run md_relation h (data dsource) [] s2)
      as (md_hits & L & Hlen).
    exists (mkMRS md_hits). subst self. rewrite !bind_assoc. step L. split; [reflexivity|].
    exact Hlen.
Qed.

End Annotations.

(** ** The queries of [neighbor_search] *)

Lemma union_hits_keeps ys : forall xs,
  exists added, union_hits xs ys = xs ++ added.
Proof.
  unfold union_hits. induction ys as [|y ys IH]; intros xs; cbn [fold_left].
  - exists []. now rewrite app_nil_r.
  - destruct (has_nid (nid y) xs); [apply IH|].
    destruct (IH (xs ++ [y])) as [added E].
    exists (y :: added). now rewrite E, <- app_assoc.
Qed.

Lemma insert_new {A} (l : list A) x y : <[length l := y]> (l ++ [x]) = l ++ [y].
Proof. now rewrite insert_app_r_alt, Nat.sub_diag by lia. Qed.

(** The Hits of a DRS that holds [acc], once the columns of the tables of
    [hits] are absorbed into it, one table after the other; [log] is the
    log at the first lookup. *)
Fixpoint expansion (net : Network) (log : list Event) (hits acc : list Hit)
  : list Hit :=
  match hits with
  | [] => acc
  | h :: hits' =>
      expansion net (log ++ [Call_get_hits_from_table (source_name h)]) hits'
        (union_hits acc
           (union_hits [] (get_hits_from_table net log (source_name h))))
  end.

(** The Hits of an accumulator that holds [acc], once the neighbors of
    [hits] are absorbed into it, one query after the other. *)
Fixpoint neighbors_of (net : Network) (relation : Relation)
    (log : list Event) (hits acc : list Hit) : list Hit :=
  match hits with
  | [] => acc
  | h :: hits' =>
      neighbors_of net relation (log ++ [Call_neighbors_id h relation]) hits'
        (union_hits acc (data (neighbors_id net log h relation)))
  end.

Lemma expansion_keeps net hits : forall log acc,
  exists added, expansion net log hits acc = acc ++ added.
Proof.
  induction hits as [|h hits IH]; intros log acc; cbn [expansion].
  - exists []. now rewrite app_nil_r.
  - destruct (union_hits_keeps
                (union_hits [] (get_hits_from_table net log (source_name h)))
                acc) as [added1 E1].
    destruct (IH (log ++ [Call_get_hits_from_table (source_name h)])
                 (union_hits acc (union_hits []
                    (get_hits_from_table net log (source_name h)))))
      as [added2 E2].
    exists (added1 ++ added2). now rewrite E2, E1, <- app_assoc.
Qed.

Section NeighborSearch.

Context {api : ApiUtils}.
Variables (network : Network) (store_client : Store).
Variable relation : Relation.

Let self : Algebra := __init__ network store_client.

Lemma _hit_to_drs_table_run h s :
  _hit_to_drs self h true s
  = (Return (length (heap s)),
     {| heap := heap s ++
          [{| data := union_hits []
                        (get_hits_from_table network (calls s) (source_name h));
              mode := TABLE;
              provenance := [mkOperation OP_TABLE [ParamHit h]] |}];
        calls := calls s ++ [Call_get_hits_from_table (source_name h)] |}).
Proof.
  unfold _hit_to_drs, self. rewrite init_network.
  unfold set_table_mode, update, load, DRS_init, alloc, call, bind, ret.
  cbn [heap calls]. rewrite lookup_new. cbn [heap calls data mode provenance].
  now rewrite insert_new.
Qed.

(** The loop of [_general_to_field_drs] on the object [drs]. *)
Lemma expansion_run hits : forall drs s d,
  heap s !! drs = Some d ->
  exists s' d',
    for_each hits drs (fun h drs =>
      fields_table <- _hit_to_drs self h true ;;
      absorb drs fields_table) s = (Return drs, s') /\
    calls s'
    = calls s ++ map (fun h => Call_get_hits_from_table (source_name h)) hits /\
    heap s' !! drs = Some d' /\
    data d' = expansion network (calls s) hits (data d) /\
    mode d' = mode d /\
    (forall r x, r <> drs -> heap s !! r = Some x -> heap s' !! r = Some x).
Proof.
  induction hits as [|h hits IH]; intros drs s d E; cbn [for_each map].
  - exists s, d. rewrite app_nil_r. repeat split; auto.
  - rewrite bind_assoc. step (_hit_to_drs_table_run h s).
    set (t := {| data := union_hits []
                   (get_hits_from_table network (calls s) (source_name h));
                 mode := TABLE;
                 provenance := [mkOperation OP_TABLE [ParamHit h]] |}).
    set (s1 := {| heap := heap s ++ [t];
                  calls := calls s
                    ++ [Call_get_hits_from_table (source_name h)] |}).
    assert (E1 : heap s1 !! drs = Some d) by now apply lookup_old.
    assert (T1 : heap s1 !! length (heap s) = Some t) by apply lookup_new.
    step (absorb_run _ _ _ _ _ E1 T1).
    match goal with
    | |- context [for_each hits drs _ ?s2] =>
        destruct (IH drs s2 _ (lookup_updated _ _ _ _ E1))
          as (s' & d' & L & C & E' & D & Md & F)
    end.
    exists s', d'. split; [exact L|]. subst s1.
    cbn [calls heap data mode] in *.
    rewrite C, <- app_assoc. repeat split; try assumption.
    intros r x Hr Ex. apply F; [exact Hr|].
    apply lookup_other; [now apply lookup_old|exact Hr].
Qed.

(** The loop of [neighbor_search] on the accumulator [o_drs]. *)
Lemma neighbors_run hits : forall o_drs s d,
  heap s !! o_drs = Some d ->
  exists s' d',
    for_each hits o_drs (fun h o_drs =>
      net <- attr_network self "_network" ;;
      hits_drs <- call_drs (Call_neighbors_id h relation)
                           (fun log => neighbors_id net log h relation) ;;
      absorb o_drs hits_drs) s = (Return o_drs, s') /\
    calls s' = calls s ++ map (fun h => Call_neighbors_id h relation) hits /\
    heap s' !! o_drs = Some d' /\
    data d' = neighbors_of network relation (calls s) hits (data d) /\
    (forall r x, r <> o_drs -> heap s !! r = Some x -> heap s' !! r = Some x).
Proof.
  unfold self. rewrite init_network.
  induction hits as [|h hits IH]; intros o_drs s d E; cbn [for_each map].
  - exists s, d. rewrite app_nil_r. repeat split; auto.
  - rewrite !bind_assoc. step (eq_refl (ret network s)).
    cbv beta. rewrite ?bind_assoc.
    step (call_drs_run (Call_neighbors_id h relation)
            (fun log => neighbors_id network log h relation) s).
    set (t := neighbors_id network (calls s) h relation).
    set (s1 := {| heap := heap s ++ [t];
                  calls := calls s ++ [Call_neighbors_id h relation] |}).
    assert (E1 : heap s1 !! o_drs = Some d) by now apply lookup_old.
    assert (T1 : heap s1 !! length (heap s) = Some t) by apply lookup_new.
    step (absorb_run _ _ _ _ _ E1 T1).
    match goal with
    | |- context [for_each hits o_drs _ ?s2] =>
        destruct (IH o_drs s2 _ (lookup_updated _ _ _ _ E1))
          as (s' & d' & L & C & E' & D & F)
    end.
    exists s', d'. split; [exact L|]. subst s1.
    cbn [calls heap data mode] in *.
    rewrite C, <- app_assoc. repeat split; try assumption.
    intros r x Hr Ex. apply F; [exact Hr|].
    apply lookup_other; [now apply lookup_old|exact Hr].
Qed.

(** C3, as the code has it: on an input that normalizes to a TABLE-mode
    DRS, [neighbor_search] looks up the columns of the table of each Hit of
    the DRS and absorbs them into the DRS itself, which keeps its own Hits
    and is set to FIELDS mode.  It then makes one [neighbors_id] query per
    Hit of the DRS so expanded, the original Hits first and the added column
    Hits after them, and folds the answers into the returned accumulator
    with [absorb]. *)
Theorem neighbor_search_queries_expansion general_input max_hops s l s1 d :
  _general_to_drs self general_input s = (Return l, s1) ->
  heap s1 !! l = Some d ->
  mode d = TABLE ->
  let tables :=
    map (fun h => Call_get_hits_from_table (source_name h)) (data d) in
  let expanded := expansion network (calls s1) (data d) (data d) in
  let queries := map (fun h => Call_neighbors_id h relation) expanded in
  exists s3 i_drs o_drs,
    neighbor_search self general_input relation max_hops s
    = (Return (length (heap s1)), s3) /\
    calls s3 = calls s1 ++ tables ++ queries /\
    heap s3 !! l = Some i_drs /\
    mode i_drs = FIELDS /\
    data i_drs = expanded /\
    heap s3 !! length (heap s1) = Some o_drs /\
    data o_drs
    = neighbors_of network relation (calls s1 ++ tables) expanded [] /\
    exists added, expanded = data d ++ added.
Proof.
  intros N E Hm tables expanded queries. unfold neighbor_search.
  step N. step (DRS_init_run [] (mkOperation NONE []) s1).
  set (o := length (heap s1)).
  set (sO := {| heap := heap s1 ++ [empty_drs]; calls := calls s1 |}).
  assert (Hlo : l <> o) by (apply lookup_lt_Some in E; subst o; lia).
  assert (ElO : heap sO !! l = Some d) by now apply lookup_old.
  assert (EoO : heap sO !! o = Some empty_drs) by apply lookup_new.
  step (absorb_provenance_run _ _ _ _ _ EoO ElO).
  set (rA := {| data := data empty_drs; mode := mode empty_drs;
                provenance := provenance empty_drs ++ provenance d |}).
  set (sA := {| heap := <[o := rA]> (heap sO); calls := calls sO |}).
  assert (ElA : heap sA !! l = Some d) by now apply lookup_other.
  assert (EoA : heap sA !! o = Some rA)
    by now apply (lookup_updated _ _ _ _ EoO).
  step (get_mode_run _ _ _ ElA). rewrite Hm. cbn [DRSMode_eqb].
  (* the expansion *)
  set (dF := {| data := data d; mode := FIELDS; provenance := provenance d |}).
  set (sF := {| heap := <[l := dF]> (heap sA); calls := calls sA |}).
  assert (ElF : heap sF !! l = Some dF)
    by now apply (lookup_updated _ _ _ _ ElA).
  assert (EoF : heap sF !! o = Some rA)
    by (apply lookup_other; [exact EoA|congruence]).
  destruct (expansion_run (data d) l sF dF ElF)
    as (sE & dE & LE & CE & ElE & DE & ME & FE).
  assert (X : (_general_to_field_drs self (GDRS l) ;;; ret tt) sA
              = (Return tt, sE)).
  { unfold _general_to_field_drs. rewrite !bind_assoc.
    step (_general_to_drs_DRS self l sA). cbv beta. rewrite ?bind_assoc.
    unfold set_fields_mode.
    erewrite bind_Return by (apply update_run; exact ElA).
    cbv beta. rewrite ?bind_assoc.
    match goal with |- _ ?st = _ => change st with sF end.
    step (iter_run _ _ _ ElF). cbn [data dF]. now step LE. }
  step X.
  (* the queries *)
  assert (EoE : heap sE !! o = Some rA) by (apply FE; [congruence|exact EoF]).
  step (iter_run _ _ _ ElE).
  destruct (neighbors_run (data dE) o sE rA EoE)
    as (s3 & d3 & LN & CN & Eo3 & DN & FN).
  exists s3, dE, d3. cbn [calls data dF sF sA sO rA empty_drs] in *.
  rewrite DE in *. fold expanded in LN, CN, DN |- *. rewrite CE in *.
  fold tables in CN, DN.
  split; [exact LN|]. split; [now rewrite CN, <- app_assoc|].
  split; [apply FN; [exact Hlo|exact ElE]|].
  split; [exact ME|]. split; [reflexivity|]. split; [exact Eo3|].
  split; [exact DN|]. apply expansion_keeps.
Qed.

End NeighborSearch.

(** * The properties on the small catalog *)

Section Scenarios.

Import Catalog.

#[local] Existing Instance Catalog.api.

(** [traverse] on the two columns of [orders], two rounds asked. *)
Lemma traverse_raises_AttributeError_witness :
  exists s2,
    traverse self (GDRS 0%nat) PKFK 2 objects
    = (Raise (AttributeError "_Algebra__network"), s2) /\
    calls s2 = calls objects.
Proof.
  apply (traverse_raises_AttributeError network store_client (GDRS 0%nat)
           PKFK 2 objects 0%nat objects orders_columns customer_id [order_id]);
    [reflexivity | reflexivity | reflexivity | reflexivity | lia].
Defined.

(** [traverse] on the TABLE-mode DRS of the store. *)
Lemma traverse_table_rejected_witness :
  traverse self (GDRS 2%nat) PKFK 2 objects
  = (Raise (ValueError "input mode DRSMode.TABLE not supported"),
     {| heap := heap objects ++ [empty_drs]; calls := calls objects |}) /\
  (exists evs, calls objects = calls objects ++ evs /\
               forallb lookup_event evs = true) /\
  (forall r, GDRS 2%nat = GDRS r -> calls objects = calls objects).
Proof.
  apply (traverse_table_rejected self (GDRS 2%nat) PKFK 2 objects 2%nat
           objects orders_placeholder); reflexivity.
Defined.

(** The Hit that stands for [orders] normalizes to a TABLE-mode DRS through
    a [get_hits_from_table] call: [traverse] raises with that call in the
    log. *)
Lemma traverse_table_network_call :
  exists l s1 d s2,
    _general_to_drs self (GHit orders_table) objects = (Return l, s1) /\
    heap s1 !! l = Some d /\ mode d = TABLE /\
    traverse self (GHit orders_table) PKFK 2 objects
    = (Raise (ValueError "input mode DRSMode.TABLE not supported"), s2) /\
    calls objects = [] /\
    calls s2 = [Call_get_hits_from_table "orders"].
Proof.
  eexists _, _, _, _. repeat split; vm_compute; reflexivity.
Defined.

(** [neighbor_search] on the TABLE-mode DRS of the store. *)
Lemma neighbor_search_queries_expansion_witness :
  exists s3 i_drs o_drs,
    neighbor_search self (GDRS 2%nat) PKFK None objects
    = (Return 3%nat, s3) /\
    calls s3
    = [Call_get_hits_from_table "orders"] ++
      [Call_neighbors_id orders_table PKFK;
       Call_neighbors_id customer_id PKFK;
       Call_neighbors_id order_id PKFK] /\
    heap s3 !! 2%nat = Some i_drs /\
    mode i_drs = FIELDS /\
    data i_drs = [orders_table; customer_id; order_id] /\
    heap s3 !! 3%nat = Some o_drs /\
    data o_drs = [customers_id] /\
    exists added,
      [orders_table; customer_id; order_id] = [orders_table] ++ added.
Proof.
  apply (neighbor_search_queries_expansion network store_client PKFK
           (GDRS 2%nat) None objects 2%nat objects orders_placeholder);
    reflexivity.
Defined.

(** The Hit of the TABLE-mode DRS of the store has no field, and
    [neighbor_search] asks for its neighbors. *)
Lemma neighbor_search_queries_table_hit :
  exists l s1 d o s3,
    _general_to_drs self (GDRS 2%nat) objects = (Return l, s1) /\
    heap s1 !! l = Some d /\ mode d = TABLE /\
    data d = [orders_table] /\
    field_undefined (field_name orders_table) = true /\
    neighbor_search self (GDRS 2%nat) PKFK None objects = (Return o, s3) /\
    In (Call_neighbors_id orders_table PKFK) (calls s3).
Proof.
  eexists _, _, _, _, _.
  repeat split; try (vm_compute; reflexivity).
  vm_compute. right. left. reflexivity.
Defined.

(** A FIELDS-mode and a TABLE-mode operand. *)
Lemma mode_mismatch_rejected_witness :
  union self (GDRS 0%nat) (GDRS 2%nat) objects
  = (Raise (AssertionError error_text), objects) /\
  intersection self (GDRS 0%nat) (GDRS 2%nat) objects
  = (Raise (AssertionError error_text), objects) /\
  difference self (GDRS 0%nat) (GDRS 2%nat) objects
  = (Raise (AssertionError error_text), objects).
Proof.
  apply (mode_mismatch_rejected self (GDRS 0%nat) (GDRS 2%nat) objects
           0%nat objects 2%nat objects orders_columns orders_placeholder);
    reflexivity.
Defined.

(** [paths] between the columns of [orders] and the column of
    [customers]. *)
Lemma paths_trail_contains_operands_witness :
  exists o s3 r,
    paths self (GDRS 0%nat) (GDRS 1%nat) PKFK 2 objects = (Return o, s3) /\
    heap s3 !! o = Some r /\
    contains_trail (provenance r) [mkOperation KW_LOOKUP [ParamStr "order"]] /\
    contains_trail (provenance r) [mkOperation ORIGIN []] /\
    (Nat.max 1 1 <= length (provenance r))%nat.
Proof.
  apply (paths_trail_contains_operands self network eq_refl PKFK 2 0%nat
           orders_columns (GDRS 0%nat) (GDRS 1%nat) objects objects 1%nat
           objects customers_column);
    reflexivity.
Defined.

(** Two source Hits and one target Hit: one annotation. *)
Lemma annotate_stores_first_source_only_witness :
  exists mrs,
    annotate self "ann" "same entity" WARNING (GDRS 0%nat)
             (mkRef (GDRS 1%nat) (Some MEANS_SAME_AS)) objects
    = (Return (Some mrs),
       {| heap := heap objects;
          calls := [Call_add_annotation "ann" "same entity"
                      (_mdclass_to_str WARNING) 42
                      (Some (50, (_mdrelation_to_str MEANS_SAME_AS).1))] |}) /\
    length (mrs_data mrs) = 1%nat.
Proof.
  apply (annotate_stores_first_source_only network store_client "ann"
           "same entity" WARNING (GDRS 0%nat)
           (mkRef (GDRS 1%nat) (Some MEANS_SAME_AS)) MEANS_SAME_AS objects
           0%nat objects 1%nat objects orders_columns customers_column
           customer_id [order_id]);
    reflexivity.
Defined.

(** The identifier 42 of the catalog. *)
Lemma integer_input_resolved_witness :
  _nid_to_hit self (GInt 42) objects
  = (Return customer_id,
     {| heap := heap objects; calls := [Call_get_info_for ["42"]] |}) /\
  _general_to_drs self (GInt 42) objects
  = (Return 3%nat,
     {| heap := heap objects ++ [{| data := [customer_id]; mode := FIELDS;
                                    provenance := [mkOperation ORIGIN []] |}];
        calls := [Call_get_info_for ["42"]] |}).
Proof.
  assert (P : _represents_int (GInt 42) = true) by reflexivity.
  assert (Q : get_info_for network (calls objects) [str (GInt 42)]
              = (42, "dbA", "orders", Some "customer_id") :: [])
    by (vm_compute; reflexivity).
  destruct (integer_input_resolved network store_client (GInt 42) objects 42
              "dbA" "orders" (Some "customer_id") [] P Q) as [H1 H2].
  split; [exact H1|]. apply H2. reflexivity.
Defined.

(** A TABLE-mode source, for [annotate] and for [md_search]. *)
Lemma invalid_mode_rejected_witness :
  annotate self "ann" "note" WARNING (GDRS 2%nat) (mkRef (GDRS 1%nat) None)
           objects
  = (Raise (ValueError "source and targets must be columns"), objects) /\
  md_search self (GDRS 2%nat) None objects
  = (Raise (ValueError "general_input must be columns"), objects).
Proof.
  destruct (invalid_mode_rejected self) as [HA HM]. split.
  - refine (proj1 (HA "ann" "note" WARNING (GDRS 2%nat)
                      (mkRef (GDRS 1%nat) None) objects 2%nat objects 1%nat
                      objects orders_placeholder customers_column
                      _ _ _ _ _)); reflexivity.
  - refine (proj1 (HM (GDRS 2%nat) None objects 2%nat objects
                      orders_placeholder _ _ _ _));
      [discriminate | reflexivity | reflexivity | reflexivity].
Defined.

(** No round on the columns of [orders]; and two rounds on an instance
    that has the attribute [_Algebra__network]. *)
Lemma traverse_holds_only_neighbors_witness :
  (exists s2,
     traverse self (GDRS 0%nat) PKFK 0 objects = (Return 3%nat, s2) /\
     heap s2 !! 3%nat
     = Some {| data := []; mode := FIELDS;
               provenance := mkOperation NONE []
                             :: provenance orders_columns |} /\
     calls s2 = calls objects) /\
  (exists o s2 r,
     traverse patched (GDRS 0%nat) PKFK 2 objects = (Return o, s2) /\
     heap s2 !! o = Some r /\
     Forall (answered patched PKFK (calls s2)) (data r)).
Proof.
  split.
  - apply (proj1 (traverse_holds_only_neighbors self PKFK (GDRS 0%nat) 0
                    objects 0%nat objects orders_columns
                    eq_refl eq_refl eq_refl)).
    lia.
  - assert (R : exists o s2,
        traverse patched (GDRS 0%nat) PKFK 2 objects = (Return o, s2))
      by (eexists _, _; vm_compute; reflexivity).
    destruct R as (o & s2 & R).
    destruct (proj2 (traverse_holds_only_neighbors patched PKFK (GDRS 0%nat)
                       2 objects 0%nat objects orders_columns
                       eq_refl eq_refl eq_refl) o s2 R) as (r & Hr & HF).
    exists o, s2, r. auto.
Defined.

(** No source at all, and a relation type in [ref]. *)
Lemma annotate_empty_source_returns_None_witness :
  annotate self "ann" "note" WARNING GNone
           (mkRef (GDRS 1%nat) (Some MEANS_SAME_AS)) objects
  = (Return None,
     {| heap := heap objects ++ [empty_drs]; calls := [] |}).
Proof.
  apply (annotate_empty_source_returns_None self "ann" "note" WARNING GNone
           (mkRef (GDRS 1%nat) (Some MEANS_SAME_AS)) MEANS_SAME_AS objects
           3%nat {| heap := heap objects ++ [empty_drs]; calls := [] |}
           1%nat {| heap := heap objects ++ [empty_drs]; calls := [] |}
           empty_drs customers_column);
    reflexivity.
Defined.

End Scenarios.
